(** * HERD sharding helpers and request-region layout (herd/main.h)

    A shallow embedding of the macros and the inline helper functions of
    [herd/main.h]: the opcode constants, the request-region geometry
    ([RR_SIZE], [OFFSET]), the signalling batch ([UNSIG_BATCH]) and the
    five placement helpers ([herd_get_shard_for_key] ...
    [herd_key_belongs_to_server]).

    C values are integers of [Z]; the fixed widths of [int] and [uint32_t]
    are written out where the code computes with them. *)

From Stdlib Require Import ZArith Lia.
From stdpp Require Import base option list.
From Equations Require Import Equations.

Local Open Scope Z_scope.

(** ** 32-bit C integers *)

Module CInt.

Definition int_min : Z := - 2 ^ 31.
Definition int_max : Z := 2 ^ 31 - 1.
Definition uint_max : Z := 2 ^ 32 - 1.

Definition in_int (z : Z) : Prop := int_min <= z <= int_max.
Definition in_uint (z : Z) : Prop := 0 <= z <= uint_max.

(** Conversion to [unsigned int]: reduction modulo 2^32. *)
Definition to_uint (z : Z) : Z := z mod 2 ^ 32.

(** Conversion to [int]: the two's-complement representative. *)
Definition to_int (z : Z) : Z := (z + 2 ^ 31) mod 2 ^ 32 - 2 ^ 31.

(** [a + b] and [a * b] on [int].  ISO C leaves signed overflow
    undefined; the x86-64 code the benchmark is built into wraps, and so
    does the model. *)
Definition add (a b : Z) : Z := to_int (a + b).
Definition mul (a b : Z) : Z := to_int (a * b).

(** [a % b] on [int]: the remainder of the division truncated towards
    zero.  A zero divisor and [INT_MIN % -1] trap. *)
Definition rem (a b : Z) : option Z :=
  if b =? 0 then None
  else if (a =? int_min) && (b =? -1) then None
  else Some (Z.rem a b).

(** [a % b] on [unsigned int]. *)
Definition urem (a b : Z) : option Z :=
  if b =? 0 then None else Some (a mod b).

(** [a[i] = v] on an [int] array of known extent; a store outside the
    array has no defined result. *)
Definition store (a : list Z) (i v : Z) : option (list Z) :=
  if (0 <=? i) && (i <? Z.of_nat (length a))
  then Some (<[Z.to_nat i := v]> a)
  else None.

End CInt.

(** ** Configuration macros *)

Definition HERD_MICA_OFFSET : Z := 10.

Definition NUM_WORKERS : Z := 12.
Definition NUM_CLIENTS : Z := 70.

Definition WINDOW_SIZE : Z := 32.

Definition UNSIG_BATCH : Z := 64.
Definition UNSIG_BATCH_ : Z := UNSIG_BATCH - 1.

Definition RR_SIZE : Z := 16 * 1024 * 1024.

(** ** Placement helpers *)

Module Placement.
Import CInt.

(** [return key_bkt % num_shards;] with [uint32_t key_bkt] and
    [int num_shards]: the divisor is converted to [unsigned int], the
    remainder is unsigned and is converted to [int] on return. *)
Definition herd_get_shard_for_key (key_bkt num_shards : Z) : option Z :=
  r ← urem key_bkt (to_uint num_shards); Some (to_int r).

(** [return shard_id % num_servers;] on [int]. *)
Definition herd_get_primary_server_for_shard (shard_id num_servers : Z)
  : option Z :=
  rem shard_id num_servers.

(** The loop of [herd_get_servers_for_shard], from the state [i],
    [servers]:
    [for (; i < replication_factor; i++)
       servers[i] = (shard_id + i) % num_servers;]
    [i < replication_factor <= INT_MAX], so [i++] does not overflow. *)
Equations? servers_loop (shard_id num_servers replication_factor : Z)
    (i : Z) (servers : list Z) : option (list Z)
    by wf (Z.to_nat (replication_factor - i)) lt :=
  servers_loop shard_id num_servers replication_factor i servers
    with Z_lt_dec i replication_factor := {
    | right _ => Some servers
    | left _ with rem (add shard_id i) num_servers := {
        | None => None
        | Some v with store servers i v := {
            | None => None
            | Some servers' =>
                servers_loop shard_id num_servers replication_factor
                  (i + 1) servers' } } }.
Proof. lia. Qed.

Definition herd_get_servers_for_shard
    (shard_id num_servers replication_factor : Z) (servers : list Z)
  : option (list Z) :=
  servers_loop shard_id num_servers replication_factor 0 servers.

(** The loop of [herd_server_owns_shard], from the state [i]:
    [for (; i < replication_factor; i++)
       if (((shard_id + i) % num_servers) == server_id) return 1;
     return 0;] *)
Equations? owns_loop (server_id shard_id num_servers replication_factor : Z)
    (i : Z) : option Z
    by wf (Z.to_nat (replication_factor - i)) lt :=
  owns_loop server_id shard_id num_servers replication_factor i
    with Z_lt_dec i replication_factor := {
    | right _ => Some 0
    | left _ with rem (add shard_id i) num_servers := {
        | None => None
        | Some v with Z.eq_dec v server_id := {
            | left _ => Some 1
            | right _ =>
                owns_loop server_id shard_id num_servers replication_factor
                  (i + 1) } } }.
Proof. lia. Qed.

Definition herd_server_owns_shard
    (server_id shard_id num_servers replication_factor : Z) : option Z :=
  owns_loop server_id shard_id num_servers replication_factor 0.

Definition herd_key_belongs_to_server
    (key_bkt server_id num_servers num_shards replication_factor : Z)
  : option Z :=
  shard_id ← herd_get_shard_for_key key_bkt num_shards;
  herd_server_owns_shard server_id shard_id num_servers replication_factor.

End Placement.

(** The value [(shard_id + i) % num_servers] that both loops compute at
    step [i], for a divisor that does not trap. *)
Definition ring_entry (shard_id num_servers i : Z) : Z :=
  Z.rem (CInt.add shard_id i) num_servers.

(** The placement table of a configuration: for every shard [0 .. H-1] the
    replica set that [herd_get_servers_for_shard] leaves in a buffer of
    [R] entries. *)
Definition placement_table (N H R : Z) : list (Z * option (list Z)) :=
  (fun sh =>
     (sh, Placement.herd_get_servers_for_shard sh N R (replicate (Z.to_nat R) 0)))
    <$> seqZ 0 H.

(** The ring segment of a shard in the spec's words:
    [replicas_of(shard) = { (shard + i) mod N : i in [0, R) }], listed in
    the order of [i]. *)
Definition replicas_of (N R shard : Z) : list Z :=
  (fun i => (shard + i) mod N) <$> seqZ 0 R.

(** ** Client routing *)

Module Client.
Import CInt Placement.

(** The routing step of the client's request cycle, as herd/client.c is
    quoted in herd/CLIENT_ROUTING.md (request routing logic, and the
    two-armed choice under "Replication Support"):
    [int shard_id = herd_get_shard_for_key(key_bkt, num_shards);
     if (replication_factor == 1)
       target_server = herd_get_primary_server_for_shard(shard_id, num_servers);
     else  /* Multiple replicas: for now, always use primary */
       target_server = herd_get_primary_server_for_shard(shard_id, num_servers);] *)
Definition target_server
    (key_bkt num_servers num_shards replication_factor : Z) : option Z :=
  shard_id ← herd_get_shard_for_key key_bkt num_shards;
  if replication_factor =? 1
  then herd_get_primary_server_for_shard shard_id num_servers
  else herd_get_primary_server_for_shard shard_id num_servers.

End Client.

(** ** Request region geometry *)

Module Region.
Import CInt.

(** [#define OFFSET(wn, cn, ws)
       ((wn * NUM_CLIENTS * WINDOW_SIZE) + (cn * WINDOW_SIZE) + ws)]
    applied to [int] operands, as the callers do.  The macro does not
    parenthesise its parameters: the definition is its value on operands
    that are single [int] values (a variable, an array element), not on
    compound argument expressions. *)
Definition OFFSET (wn cn ws : Z) : Z :=
  add (add (mul (mul wn NUM_CLIENTS) WINDOW_SIZE) (mul cn WINDOW_SIZE)) ws.

(** [OFFSET(wn, clt_gid, ws) * sizeof(struct mica_op)], the displacement
    a client adds to the region's base address: the [int] slot index is
    converted to the 64-bit [size_t] of the [sizeof] operand.  The slot
    size [sizeof(struct mica_op)] comes from mica/mica.h and is a
    parameter here. *)
Definition slot_offset (slot_size : Z) (wn cn ws : Z) : Z :=
  ((OFFSET wn cn ws mod 2 ^ 64) * slot_size) mod 2 ^ 64.

(** Bytes taken by all the slots of one request region,
    [NUM_WORKERS x NUM_CLIENTS x WINDOW_SIZE x slot_size]. *)
Definition slots_bytes (slot_size : Z) : Z :=
  NUM_WORKERS * NUM_CLIENTS * WINDOW_SIZE * slot_size.

End Region.

(** ** Opcodes *)

Module Opcodes.

(** The engine opcodes [MICA_OP_GET] and [MICA_OP_PUT] are defined in
    mica/mica.h, which is not among these sources: the two HERD opcodes
    are functions of them. *)
Section WithMica.
Variables MICA_OP_GET MICA_OP_PUT : Z.

Definition HERD_OP_GET : Z := MICA_OP_GET + HERD_MICA_OFFSET.
Definition HERD_OP_PUT : Z := MICA_OP_PUT + HERD_MICA_OFFSET.

(** The requirement (1) written above the macros. *)
Definition opcode_chain : Prop :=
  0 < MICA_OP_GET /\ MICA_OP_GET < MICA_OP_PUT /\
  MICA_OP_PUT < HERD_OP_GET /\ HERD_OP_GET < HERD_OP_PUT.
End WithMica.

End Opcodes.

(** ** Start-up validation and key population *)

Definition HERD_MAX_SERVERS : Z := 16.

Module Startup.

(** The parameter validation of herd/main.c, as IMPLEMENTATION_SUMMARY.md
    quotes it; the process goes on only when the four assertions hold:
    [assert(num_servers >= 1 && num_servers <= HERD_MAX_SERVERS);
     assert(num_shards >= 1);
     assert(replication_factor >= 1 && replication_factor <= num_servers);
     assert(server_id >= 0 && server_id < num_servers);] *)
Definition params_ok
    (num_servers num_shards replication_factor server_id : Z) : bool :=
  ((1 <=? num_servers) && (num_servers <=? HERD_MAX_SERVERS))
  && (1 <=? num_shards)
  && ((1 <=? replication_factor) && (replication_factor <=? num_servers))
  && ((0 <=? server_id) && (server_id <? num_servers)).

End Startup.

Module Worker.
Import Placement.

(** The key population loop of herd/worker.c, as IMPLEMENTATION_SUMMARY.md
    quotes it, over the bucket fields of the key array; [kv] is the
    sequence of keys handed to [mica_insert_one] so far:
    [for (i = 0; i < HERD_NUM_KEYS; i++) {
       uint32_t key_bkt = <the bkt field of op.key>;
       if (!herd_key_belongs_to_server(key_bkt, server_id, num_servers,
                                       num_shards, replication_factor))
         continue;
       mica_insert_one(&kv, &op, &resp);
     }] *)
Fixpoint populate (key_bkts : list Z)
    (server_id num_servers num_shards replication_factor : Z)
    (kv : list Z) : option (list Z) :=
  match key_bkts with
  | [] => Some kv
  | key_bkt :: rest =>
      belongs ← herd_key_belongs_to_server key_bkt server_id num_servers
                  num_shards replication_factor;
      if belongs =? 0
      then populate rest server_id num_servers num_shards replication_factor kv
      else populate rest server_id num_servers num_shards replication_factor
             (kv ++ [key_bkt])
  end.

End Worker.

(** * Properties *)

(** ** Facts about the integer model *)

Section CIntFacts.
Import CInt.

Lemma to_int_id z : in_int z -> to_int z = z.
Proof.
  unfold in_int, int_min, int_max, to_int. intros Hz.
  rewrite Z.mod_small; lia.
Qed.

Lemma to_uint_id z : in_uint z -> to_uint z = z.
Proof.
  unfold in_uint, uint_max, to_uint. intros Hz.
  apply Z.mod_small. lia.
Qed.

Lemma add_exact a b : in_int (a + b) -> add a b = a + b.
Proof. apply to_int_id. Qed.

Lemma mul_exact a b : in_int (a * b) -> mul a b = a * b.
Proof. apply to_int_id. Qed.

(** A positive divisor never traps. *)
Lemma rem_pos a b : 0 < b -> rem a b = Some (Z.rem a b).
Proof.
  intros Hb. unfold rem.
  destruct (Z.eqb_spec b 0); [lia|].
  destruct (Z.eqb_spec b (-1)); [lia|].
  now rewrite andb_false_r.
Qed.

Lemma rem_nonneg a b : 0 <= a -> 0 < b -> rem a b = Some (a mod b).
Proof.
  intros Ha Hb. rewrite rem_pos by done.
  now rewrite Z.rem_mod_nonneg.
Qed.

Lemma store_in_range (a : list Z) i v :
  0 <= i < Z.of_nat (length a) ->
  store a i v = Some (<[Z.to_nat i := v]> a).
Proof.
  intros [Hlo Hhi]. unfold store.
  destruct (Z.leb_spec 0 i); [|lia].
  destruct (Z.ltb_spec i (Z.of_nat (length a))); [done|lia].
Qed.

End CIntFacts.

(** ** The two loops *)

Section Loops.
Import CInt Placement.

Lemma servers_loop_step sh N R i (servers : list Z) :
  servers_loop sh N R i servers =
  if Z_lt_dec i R
  then v ← rem (add sh i) N;
       servers' ← store servers i v;
       servers_loop sh N R (i + 1) servers'
  else Some servers.
Proof.
  rewrite servers_loop_equation_1.
  destruct (Z_lt_dec i R); simpl; [|done].
  destruct (rem (add sh i) N) as [v|]; simpl; [|done].
  destruct (store servers i v); done.
Qed.

Lemma owns_loop_step s sh N R i :
  owns_loop s sh N R i =
  if Z_lt_dec i R
  then v ← rem (add sh i) N;
       if Z.eq_dec v s then Some 1 else owns_loop s sh N R (i + 1)
  else Some 0.
Proof.
  rewrite owns_loop_equation_1.
  destruct (Z_lt_dec i R); simpl; [|done].
  destruct (rem (add sh i) N) as [v|]; simpl; [|done].
  destruct (Z.eq_dec v s); done.
Qed.

(** Started at [i] on a buffer that reaches up to [R], the loop rewrites
    exactly the entries [i .. R-1]. *)
Lemma servers_loop_run sh N R (n : nat) : forall i (servers : list Z),
  0 < N ->
  0 <= i <= R ->
  Z.to_nat (R - i) = n ->
  R <= Z.of_nat (length servers) ->
  servers_loop sh N R i servers =
  Some (take (Z.to_nat i) servers
          ++ (ring_entry sh N <$> seqZ i (R - i))
          ++ drop (Z.to_nat R) servers).
Proof.
  induction n as [|n IH]; intros i servers HN Hi Hn Hlen;
    rewrite servers_loop_step.
  - assert (i = R) as -> by lia.
    destruct (Z_lt_dec R R); [lia|].
    rewrite Z.sub_diag. simpl. now rewrite take_drop.
  - destruct (Z_lt_dec i R); [|lia].
    rewrite rem_pos by done. simpl.
    rewrite store_in_range by lia. simpl.
    rewrite IH; [|done|lia|lia|rewrite length_insert; lia].
    f_equal.
    replace (Z.to_nat (i + 1)) with (S (Z.to_nat i)) by lia.
    erewrite take_S_r by (apply list_lookup_insert_eq; lia).
    rewrite take_insert_ge by lia.
    rewrite drop_insert_lt by lia.
    rewrite (seqZ_cons i (R - i)) by lia.
    rewrite fmap_cons, <- app_assoc. simpl.
    replace (Z.succ i) with (i + 1) by lia.
    replace (Z.pred (R - i)) with (R - (i + 1)) by lia.
    reflexivity.
Qed.

(** The early-exit loop answers 1 exactly when one of the entries
    [i .. R-1] is [s], and 0 otherwise. *)
Lemma owns_loop_run s sh N R (n : nat) : forall i,
  0 < N ->
  Z.to_nat (R - i) = n ->
  exists r, owns_loop s sh N R i = Some r /\ (r = 0 \/ r = 1) /\
    (r = 1 <-> exists j, i <= j < R /\ ring_entry sh N j = s).
Proof.
  induction n as [|n IH]; intros i HN Hn; rewrite owns_loop_step.
  - destruct (Z_lt_dec i R); [lia|].
    exists 0. split; [done|]. split; [by left|].
    split; [done|]. intros (j & Hj & _). lia.
  - destruct (Z_lt_dec i R); [|lia].
    rewrite rem_pos by done. simpl.
    destruct (Z.eq_dec (Z.rem (add sh i) N) s) as [Heq|Hne].
    + exists 1. split; [done|]. split; [by right|].
      split; [|done]. intros _. exists i. split; [lia|done].
    + destruct (IH (i + 1)) as (r & Hr & H01 & Hiff); [done|lia|].
      exists r. split; [done|]. split; [done|].
      rewrite Hiff. split; intros (j & Hj & Hs).
      * exists j. split; [lia|done].
      * exists j. split; [|done].
        destruct (Z.eq_dec j i) as [->|]; [done|lia].
Qed.

End Loops.

(** ** Ring arithmetic *)

Section Ring.
Import CInt.

(** Without overflow the stored entry is the mathematical residue. *)
Lemma ring_entry_mod sh N i :
  0 <= sh -> 0 <= i -> sh + i <= int_max -> 0 < N ->
  ring_entry sh N i = (sh + i) mod N.
Proof.
  intros Hsh Hi Hmax HN. unfold ring_entry.
  rewrite add_exact by (unfold in_int, int_min, int_max in *; lia).
  apply Z.rem_mod_nonneg; lia.
Qed.

(** Fewer than [N] consecutive integers have distinct residues. *)
Lemma mod_window_inj sh N i j :
  0 < N -> 0 <= i < N -> 0 <= j < N ->
  (sh + i) mod N = (sh + j) mod N -> i = j.
Proof.
  intros HN Hi Hj Heq.
  pose proof (Z.div_mod (sh + i) N ltac:(lia)) as Ei.
  pose proof (Z.div_mod (sh + j) N ltac:(lia)) as Ej.
  rewrite Heq in Ei.
  assert (i - j = N * ((sh + i) / N - (sh + j) / N)) as Hd by lia.
  assert ((sh + i) / N - (sh + j) / N = 0) by nia.
  nia.
Qed.

Lemma replicas_of_entries sh N R :
  0 <= sh -> sh + (R - 1) <= int_max -> 0 < N ->
  ring_entry sh N <$> seqZ 0 R = replicas_of N R sh.
Proof.
  intros Hsh Hmax HN. unfold replicas_of.
  apply list_fmap_ext. intros k i [-> ?]%lookup_seqZ.
  apply ring_entry_mod; lia.
Qed.

Lemma length_replicas_of sh N R : length (replicas_of N R sh) = Z.to_nat R.
Proof. unfold replicas_of. now rewrite length_fmap, length_seqZ. Qed.

Lemma elem_of_replicas_of sh N R s :
  s ∈ replicas_of N R sh <-> exists i, 0 <= i < R /\ s = (sh + i) mod N.
Proof.
  unfold replicas_of. rewrite list_elem_of_fmap. split.
  - intros (i & -> & Hi%elem_of_seqZ). exists i. split; [lia|done].
  - intros (i & Hi & ->). exists i. split; [done|].
    apply elem_of_seqZ. lia.
Qed.

Lemma NoDup_replicas_of sh N R : 0 < N -> R <= N -> NoDup (replicas_of N R sh).
Proof.
  intros HN HR. unfold replicas_of.
  apply NoDup_fmap_2_strong; [|apply NoDup_seqZ].
  intros i j Hi%elem_of_seqZ Hj%elem_of_seqZ.
  apply mod_window_inj; lia.
Qed.

End Ring.

(** ** Placement *)

Section PlacementTheorems.
Import CInt Placement.

Lemma shard_for_key_mod b H :
  0 <= b <= uint_max -> 1 <= H <= int_max ->
  herd_get_shard_for_key b H = Some (b mod H).
Proof.
  intros Hb HH. unfold herd_get_shard_for_key, urem.
  rewrite to_uint_id by (unfold in_uint, uint_max, int_max in *; lia).
  destruct (Z.eqb_spec H 0); [lia|]. simpl.
  pose proof (Z.mod_pos_bound b H ltac:(lia)).
  rewrite to_int_id by (unfold in_int, int_min, int_max in *; lia).
  reflexivity.
Qed.

Lemma servers_for_shard_entries sh N R (servers : list Z) :
  0 < N -> 0 <= R -> R <= Z.of_nat (length servers) ->
  herd_get_servers_for_shard sh N R servers =
  Some ((ring_entry sh N <$> seqZ 0 R) ++ drop (Z.to_nat R) servers).
Proof.
  intros HN HR Hlen. unfold herd_get_servers_for_shard.
  rewrite (servers_loop_run sh N R (Z.to_nat R)) by (done || lia).
  now rewrite Z.sub_0_r.
Qed.

Lemma owns_shard_entries s sh N R :
  0 < N ->
  exists r, herd_server_owns_shard s sh N R = Some r /\ (r = 0 \/ r = 1) /\
    (r = 1 <-> s ∈ ring_entry sh N <$> seqZ 0 R).
Proof.
  intros HN. unfold herd_server_owns_shard.
  destruct (owns_loop_run s sh N R (Z.to_nat (R - 0)) 0 HN eq_refl)
    as (r & Hr & H01 & Hiff).
  exists r. split; [done|]. split; [done|].
  rewrite Hiff, list_elem_of_fmap. split.
  - intros (j & Hj & <-). exists j. split; [done|].
    apply elem_of_seqZ. lia.
  - intros (j & -> & Hj%elem_of_seqZ). exists j. split; [lia|done].
Qed.

(** Ring containment against the ring segment itself: while the sums
    [shard_id + i] stay in [int], ownership is membership in
    [replicas_of]. *)
Lemma owns_iff_replicas_of s sh N R :
  0 <= sh -> sh + (R - 1) <= int_max -> 0 < N ->
  exists r, herd_server_owns_shard s sh N R = Some r /\ (r = 0 \/ r = 1) /\
    (r = 1 <-> s ∈ replicas_of N R sh).
Proof.
  intros Hsh Hmax HN.
  destruct (owns_shard_entries s sh N R HN) as (r & Hr & H01 & Hiff).
  exists r. rewrite <- replicas_of_entries by done. done.
Qed.

(** C1 as written fails at the top of the [int] range: shard 2147483646
    is a shard id of the configuration N = 3, H = 2147483647, R = 3 (the
    bucket 2147483646 maps to it), and at [i = 2] the sum
    [shard_id + i] wraps: the third entry written is -2, while the ring
    segment of that shard is 0, 1, 2. *)
Lemma servers_for_shard_wraps :
  herd_get_shard_for_key 2147483646 2147483647 = Some 2147483646 /\
  herd_get_servers_for_shard 2147483646 3 3 [0; 0; 0] = Some [0; 1; -2] /\
  replicas_of 3 3 2147483646 = [0; 1; 2] /\
  ~ (forall sh N R (servers : list Z),
       0 <= sh <= int_max -> 1 <= N -> 1 <= R <= N ->
       R <= Z.of_nat (length servers) ->
       exists out,
         herd_get_servers_for_shard sh N R servers = Some out /\
         forall s, s ∈ take (Z.to_nat R) out <-> s ∈ replicas_of N R sh).
Proof.
  split; [vm_compute; reflexivity|].
  split; [vm_compute; reflexivity|].
  split; [vm_compute; reflexivity|].
  intros Hall.
  destruct (Hall 2147483646 3 3 [0; 0; 0]) as (out & Hout & Hmem);
    [unfold int_max; lia|lia|lia|simpl; lia|].
  vm_compute in Hout. injection Hout as <-.
  assert (-2 ∈ replicas_of 3 3 2147483646) as Hin.
  { apply Hmem. change (-2 ∈ [0; 1; -2]). do 2 apply list_elem_of_further.
    apply list_elem_of_here. }
  apply elem_of_replicas_of in Hin as (i & Hi & Heq).
  pose proof (Z.mod_pos_bound (2147483646 + i) 3 ltac:(lia)). lia.
Qed.

(** C1, amended: for every shard id [sh >= 0] whose ring sums stay in
    [int] ([sh + R - 1 <= INT_MAX]) and every configuration with
    [1 <= N], [1 <= R <= N], [herd_get_servers_for_shard] writes into
    the first [R] entries of the buffer exactly the ring segment
    [(sh + i) mod N], [i] in [0, R), and leaves the rest of the buffer;
    the segment has [R] entries, pairwise distinct, each a server id in
    [0, N); and for N = 4, H = 4, R = 3 the placement table is
    0:{0,1,2}, 1:{1,2,3}, 2:{2,3,0}, 3:{3,0,1}. *)
Theorem servers_for_shard_ring sh N R (servers : list Z) :
  0 <= sh -> sh + (R - 1) <= int_max ->
  1 <= N -> 1 <= R <= N ->
  R <= Z.of_nat (length servers) ->
  herd_get_servers_for_shard sh N R servers =
    Some (replicas_of N R sh ++ drop (Z.to_nat R) servers) /\
  length (replicas_of N R sh) = Z.to_nat R /\
  NoDup (replicas_of N R sh) /\
  (forall s, s ∈ replicas_of N R sh <->
             exists i, 0 <= i < R /\ s = (sh + i) mod N) /\
  (forall s, s ∈ replicas_of N R sh -> 0 <= s < N) /\
  placement_table 4 4 3 =
    [(0, Some [0; 1; 2]); (1, Some [1; 2; 3]);
     (2, Some [2; 3; 0]); (3, Some [3; 0; 1])].
Proof.
  intros Hsh Hmax HN HR Hlen.
  split.
  { rewrite servers_for_shard_entries by lia.
    now rewrite replicas_of_entries by lia. }
  split; [apply length_replicas_of|].
  split; [apply NoDup_replicas_of; lia|].
  split; [apply elem_of_replicas_of|].
  split; [|vm_compute; reflexivity].
  intros s (i & Hi & ->)%elem_of_replicas_of.
  apply Z.mod_pos_bound. lia.
Qed.

Lemma servers_for_shard_ring_witness :
  herd_get_servers_for_shard 6 4 3 [9; 9; 9; 9] = Some [2; 3; 0; 9].
Proof.
  destruct (servers_for_shard_ring 6 4 3 [9; 9; 9; 9]) as [Hrun _].
  - lia.
  - unfold int_max. lia.
  - lia.
  - lia.
  - simpl. lia.
  - exact Hrun.
Defined.

(** C2: for every 32-bit bucket [b] and every configuration with
    [H >= 1], [N >= 1], the shard of [b] is [b mod H]
    ([herd_get_shard_for_key]), the primary of a shard [sh >= 0] is
    [sh mod N] ([herd_get_primary_server_for_shard]), and the server the
    client routes [b] to is the primary of the shard of [b], whatever
    the replication factor. *)
Theorem client_routes_to_primary b N H R :
  0 <= b <= uint_max -> 1 <= H <= int_max -> 1 <= N ->
  herd_get_shard_for_key b H = Some (b mod H) /\
  (forall sh, 0 <= sh ->
              herd_get_primary_server_for_shard sh N = Some (sh mod N)) /\
  Client.target_server b N H R = Some ((b mod H) mod N).
Proof.
  intros Hb HH HN.
  pose proof (Z.mod_pos_bound b H ltac:(lia)) as Hsh.
  split; [now apply shard_for_key_mod|].
  split.
  { intros sh Hsh'. unfold herd_get_primary_server_for_shard.
    apply rem_nonneg; lia. }
  unfold Client.target_server.
  rewrite shard_for_key_mod by done. simpl.
  unfold herd_get_primary_server_for_shard.
  rewrite rem_nonneg by lia.
  now destruct (R =? 1).
Qed.

Lemma client_routes_to_primary_witness :
  Client.target_server 4294967295 4 8 3 = Some 3.
Proof.
  destruct (client_routes_to_primary 4294967295 4 8 3) as (_ & _ & Ht).
  - unfold uint_max. lia.
  - unfold int_max. lia.
  - lia.
  - exact Ht.
Defined.

(** C3: for every server id [s], shard id [sh >= 0] and configuration
    with [1 <= N], [1 <= R <= N], both helpers return, and
    [herd_server_owns_shard s sh N R] returns 1 exactly when [s] is among
    the [R] entries that [herd_get_servers_for_shard sh N R] writes
    (otherwise it returns 0). *)
Theorem owns_iff_in_servers s sh N R (buf : list Z) :
  0 <= sh -> 1 <= N -> 1 <= R <= N ->
  R <= Z.of_nat (length buf) ->
  exists servers r,
    herd_get_servers_for_shard sh N R buf = Some servers /\
    herd_server_owns_shard s sh N R = Some r /\
    (r = 0 \/ r = 1) /\
    (r = 1 <-> s ∈ take (Z.to_nat R) servers).
Proof.
  intros Hsh HN HR Hlen.
  destruct (owns_shard_entries s sh N R ltac:(lia)) as (r & Hr & H01 & Hiff).
  eexists _, r.
  split; [apply servers_for_shard_entries; lia|].
  split; [done|]. split; [done|].
  rewrite take_app_length' by (rewrite length_fmap, length_seqZ; lia).
  exact Hiff.
Qed.

Lemma owns_iff_in_servers_witness :
  exists servers r,
    herd_get_servers_for_shard 2 4 3 [0; 0; 0] = Some servers /\
    herd_server_owns_shard 1 2 4 3 = Some r /\
    (r = 0 \/ r = 1) /\
    (r = 1 <-> 1 ∈ take (Z.to_nat 3) servers).
Proof.
  apply (owns_iff_in_servers 1 2 4 3 [0; 0; 0]).
  - lia.
  - lia.
  - lia.
  - simpl. lia.
Defined.

(** C4: for every 32-bit bucket [b], server id [s] and configuration
    with [H >= 1], [1 <= N], [1 <= R <= N],
    [herd_key_belongs_to_server b s N H R] returns what
    [herd_server_owns_shard] returns for [s] and the shard
    [herd_get_shard_for_key b H = b mod H]. *)
Theorem key_belongs_is_owns_of_shard b s N H R :
  0 <= b <= uint_max -> 1 <= H <= int_max -> 1 <= N -> 1 <= R <= N ->
  exists sh r,
    herd_get_shard_for_key b H = Some sh /\ sh = b mod H /\
    herd_server_owns_shard s sh N R = Some r /\
    herd_key_belongs_to_server b s N H R = Some r.
Proof.
  intros Hb HH HN HR.
  destruct (owns_shard_entries s (b mod H) N R ltac:(lia)) as (r & Hr & _).
  exists (b mod H), r.
  split; [now apply shard_for_key_mod|].
  split; [done|]. split; [done|].
  unfold herd_key_belongs_to_server.
  rewrite shard_for_key_mod by done. exact Hr.
Qed.

Lemma key_belongs_is_owns_of_shard_witness :
  exists sh r,
    herd_get_shard_for_key 7 4 = Some sh /\ sh = 7 mod 4 /\
    herd_server_owns_shard 0 sh 4 3 = Some r /\
    herd_key_belongs_to_server 7 0 4 4 3 = Some r.
Proof.
  apply (key_belongs_is_owns_of_shard 7 0 4 4 3).
  - unfold uint_max. lia.
  - unfold int_max. lia.
  - lia.
  - lia.
Defined.

(** C9: for every shard id [sh >= 0] and configuration with [1 <= N],
    [1 <= R <= N], the primary server of the shard owns it:
    [herd_server_owns_shard] returns 1 for
    [herd_get_primary_server_for_shard sh N]. *)
Theorem primary_owns_shard sh N R :
  0 <= sh <= int_max -> 1 <= N -> 1 <= R <= N ->
  exists p,
    herd_get_primary_server_for_shard sh N = Some p /\
    herd_server_owns_shard p sh N R = Some 1.
Proof.
  intros Hsh HN HR. exists (Z.rem sh N).
  unfold herd_get_primary_server_for_shard.
  split; [apply rem_pos; lia|].
  unfold herd_server_owns_shard. rewrite owns_loop_step.
  destruct (Z_lt_dec 0 R); [|lia].
  rewrite add_exact by (unfold in_int, int_min, int_max in *; lia).
  rewrite Z.add_0_r, rem_pos by lia. simpl.
  destruct (Z.eq_dec (Z.rem sh N) (Z.rem sh N)); done.
Qed.

Lemma primary_owns_shard_witness :
  exists p,
    herd_get_primary_server_for_shard 6 4 = Some p /\
    herd_server_owns_shard p 6 4 3 = Some 1.
Proof.
  apply (primary_owns_shard 6 4 3).
  - unfold int_max. lia.
  - lia.
  - lia.
Defined.

End PlacementTheorems.

(** ** Request region *)

Section RegionTheorems.
Import CInt Region.

(** [OFFSET] computes the mixed-radix slot index whenever that index is
    representable in [int]. *)
Lemma OFFSET_exact w c s :
  0 <= w -> 0 <= c -> 0 <= s ->
  w * NUM_CLIENTS * WINDOW_SIZE + c * WINDOW_SIZE + s <= int_max ->
  OFFSET w c s = w * NUM_CLIENTS * WINDOW_SIZE + c * WINDOW_SIZE + s.
Proof.
  unfold OFFSET, NUM_CLIENTS, WINDOW_SIZE, int_max. intros Hw Hc Hs Hmax.
  rewrite (mul_exact w) by (unfold in_int, int_min, int_max; lia).
  rewrite (mul_exact (w * 70)) by (unfold in_int, int_min, int_max; lia).
  rewrite (mul_exact c) by (unfold in_int, int_min, int_max; lia).
  rewrite (add_exact (w * 70 * 32)) by (unfold in_int, int_min, int_max; lia).
  apply add_exact. unfold in_int, int_min, int_max. lia.
Qed.

Lemma OFFSET_in_region w c s :
  0 <= w < NUM_WORKERS -> 0 <= c < NUM_CLIENTS -> 0 <= s < WINDOW_SIZE ->
  OFFSET w c s = w * NUM_CLIENTS * WINDOW_SIZE + c * WINDOW_SIZE + s /\
  0 <= OFFSET w c s < NUM_WORKERS * NUM_CLIENTS * WINDOW_SIZE.
Proof.
  intros Hw Hc Hs.
  rewrite OFFSET_exact;
    unfold NUM_WORKERS, NUM_CLIENTS, WINDOW_SIZE, int_max in *; lia.
Qed.

Lemma slot_offset_exact slot_size w c s :
  0 <= slot_size < 2 ^ 32 -> 0 <= OFFSET w c s <= int_max ->
  slot_offset slot_size w c s = OFFSET w c s * slot_size.
Proof.
  unfold slot_offset, int_max. intros Hsz Hidx.
  rewrite (Z.mod_small (OFFSET w c s)) by lia.
  apply Z.mod_small. nia.
Qed.

(** C6: for every worker index [w], client index [c] and window slot
    index [s] (non-negative, with a slot index that [int] can hold, as
    is every index of the region), [OFFSET(w, c, s)] is
    [w*NUM_CLIENTS*WINDOW_SIZE + c*WINDOW_SIZE + s] with
    [NUM_CLIENTS = 70] and [WINDOW_SIZE = 32], and the byte offset
    [OFFSET(w, c, s) * slot_size] is that value times the slot size. *)
Theorem OFFSET_slot_index w c s :
  0 <= w -> 0 <= c -> 0 <= s ->
  w * NUM_CLIENTS * WINDOW_SIZE + c * WINDOW_SIZE + s <= int_max ->
  NUM_CLIENTS = 70 /\ WINDOW_SIZE = 32 /\
  OFFSET w c s = w * NUM_CLIENTS * WINDOW_SIZE + c * WINDOW_SIZE + s /\
  forall slot_size, 0 <= slot_size < 2 ^ 32 ->
    slot_offset slot_size w c s =
    (w * NUM_CLIENTS * WINDOW_SIZE + c * WINDOW_SIZE + s) * slot_size.
Proof.
  intros Hw Hc Hs Hmax.
  split; [reflexivity|]. split; [reflexivity|].
  pose proof (OFFSET_exact w c s Hw Hc Hs Hmax) as Hoff.
  split; [exact Hoff|].
  intros slot_size Hsz.
  rewrite slot_offset_exact, Hoff; [reflexivity|done|].
  rewrite Hoff. unfold NUM_CLIENTS, WINDOW_SIZE in *. lia.
Qed.

Lemma OFFSET_slot_index_witness :
  OFFSET 11 69 31 = 11 * NUM_CLIENTS * WINDOW_SIZE + 69 * WINDOW_SIZE + 31 /\
  slot_offset 64 11 69 31 = 26879 * 64.
Proof.
  destruct (OFFSET_slot_index 11 69 31) as (_ & _ & Hoff & Hbyte).
  - lia.
  - lia.
  - lia.
  - unfold NUM_CLIENTS, WINDOW_SIZE, int_max. lia.
  - split; [exact Hoff|]. apply (Hbyte 64). lia.
Defined.

(** C10: on the bounded domain [w, w'] in [0, NUM_WORKERS), [c, c'] in
    [0, NUM_CLIENTS), [s, s'] in [0, WINDOW_SIZE), [OFFSET] is injective:
    two positions with the same slot index are the same position. *)
Theorem OFFSET_injective w c s w' c' s' :
  0 <= w < NUM_WORKERS -> 0 <= c < NUM_CLIENTS -> 0 <= s < WINDOW_SIZE ->
  0 <= w' < NUM_WORKERS -> 0 <= c' < NUM_CLIENTS -> 0 <= s' < WINDOW_SIZE ->
  OFFSET w c s = OFFSET w' c' s' ->
  (w, c, s) = (w', c', s').
Proof.
  intros Hw Hc Hs Hw' Hc' Hs' Heq.
  destruct (OFFSET_in_region w c s Hw Hc Hs) as [E _].
  destruct (OFFSET_in_region w' c' s' Hw' Hc' Hs') as [E' _].
  rewrite E, E' in Heq.
  unfold NUM_WORKERS, NUM_CLIENTS, WINDOW_SIZE in *.
  assert (w = w') by lia. assert (c = c') by lia. assert (s = s') by lia.
  congruence.
Qed.

Lemma OFFSET_injective_witness : (3, 5, 7) = (3, 5, 7).
Proof.
  apply (OFFSET_injective 3 5 7 3 5 7).
  - unfold NUM_WORKERS. lia.
  - unfold NUM_CLIENTS. lia.
  - unfold WINDOW_SIZE. lia.
  - unfold NUM_WORKERS. lia.
  - unfold NUM_CLIENTS. lia.
  - unfold WINDOW_SIZE. lia.
  - reflexivity.
Defined.

(** [RR_SIZE] is 2^24, and [NUM_WORKERS * NUM_CLIENTS * WINDOW_SIZE =
    26880] has the odd factor 105: no multiple of it is [RR_SIZE]. *)
Lemma slots_bytes_neq_RR_SIZE slot_size : RR_SIZE <> slots_bytes slot_size.
Proof.
  unfold RR_SIZE, slots_bytes, NUM_WORKERS, NUM_CLIENTS, WINDOW_SIZE. lia.
Qed.

(** C7 as written fails, whatever the slot size is: no slot size makes
    [RR_SIZE] equal to
    [NUM_WORKERS * NUM_CLIENTS * WINDOW_SIZE * slot_size]. *)
Lemma RR_SIZE_not_slots_bytes :
  ~ exists slot_size : Z, RR_SIZE = slots_bytes slot_size.
Proof.
  intros [slot_size Heq]. exact (slots_bytes_neq_RR_SIZE slot_size Heq).
Qed.

(** C7, amended: [RR_SIZE] is the fixed value 16 * 1024 * 1024 =
    16777216 bytes, with [NUM_WORKERS = 12], [NUM_CLIENTS = 70] and
    [WINDOW_SIZE = 32]; it differs from
    [NUM_WORKERS * NUM_CLIENTS * WINDOW_SIZE * slot_size] for every slot
    size, and is at least that product exactly for slot sizes up to 624
    bytes, in which case every slot (w, c, s) of the region ends inside
    the first [RR_SIZE] bytes. *)
Theorem RR_SIZE_bounds_slots slot_size :
  RR_SIZE = 16777216 /\
  NUM_WORKERS = 12 /\ NUM_CLIENTS = 70 /\ WINDOW_SIZE = 32 /\
  RR_SIZE <> slots_bytes slot_size /\
  (slots_bytes slot_size <= RR_SIZE <-> slot_size <= 624) /\
  (0 <= slot_size <= 624 ->
   forall w c s,
     0 <= w < NUM_WORKERS -> 0 <= c < NUM_CLIENTS -> 0 <= s < WINDOW_SIZE ->
     slot_offset slot_size w c s + slot_size <= RR_SIZE).
Proof.
  split; [reflexivity|]. do 3 (split; [reflexivity|]).
  split; [apply slots_bytes_neq_RR_SIZE|].
  split.
  { unfold RR_SIZE, slots_bytes, NUM_WORKERS, NUM_CLIENTS, WINDOW_SIZE. lia. }
  intros Hsz w c s Hw Hc Hs.
  destruct (OFFSET_in_region w c s Hw Hc Hs) as [_ Hrange].
  rewrite slot_offset_exact.
  - unfold RR_SIZE, NUM_WORKERS, NUM_CLIENTS, WINDOW_SIZE in *. nia.
  - lia.
  - unfold int_max, NUM_WORKERS, NUM_CLIENTS, WINDOW_SIZE in *. lia.
Qed.

Lemma RR_SIZE_bounds_slots_witness :
  slot_offset 64 11 69 31 + 64 <= RR_SIZE.
Proof.
  destruct (RR_SIZE_bounds_slots 64) as (_ & _ & _ & _ & _ & _ & Hfit).
  apply Hfit.
  - lia.
  - unfold NUM_WORKERS. lia.
  - unfold NUM_CLIENTS. lia.
  - unfold WINDOW_SIZE. lia.
Defined.

End RegionTheorems.

(** ** Opcodes *)

Section OpcodeTheorems.
Import Opcodes.

(** What the requirement written above the macros leaves to mica/mica.h:
    the chain holds for exactly the engine opcodes with
    [0 < MICA_OP_GET < MICA_OP_PUT < MICA_OP_GET + HERD_MICA_OFFSET]. *)
Lemma opcode_chain_iff G P :
  opcode_chain G P <-> 0 < G /\ G < P /\ P < G + HERD_MICA_OFFSET.
Proof.
  unfold opcode_chain, HERD_OP_GET, HERD_OP_PUT, HERD_MICA_OFFSET.
  lia.
Qed.

End OpcodeTheorems.

(** ** Signalling batch *)

(** C8: [UNSIG_BATCH = 64 = 2^6] is a power of two, [UNSIG_BATCH_] is the
    mask of its six low bits, and for every natural [n] the test
    [(n & UNSIG_BATCH_) == 0] holds exactly when [n % UNSIG_BATCH == 0]. *)
Theorem UNSIG_BATCH_mask n :
  0 <= n ->
  UNSIG_BATCH = 64 /\ UNSIG_BATCH = 2 ^ 6 /\ UNSIG_BATCH_ = Z.ones 6 /\
  (Z.land n UNSIG_BATCH_ = 0 <-> n mod UNSIG_BATCH = 0) /\
  (Z.land n UNSIG_BATCH_ =? 0) = (Z.rem n UNSIG_BATCH =? 0).
Proof.
  intros Hn.
  split; [reflexivity|]. split; [reflexivity|]. split; [reflexivity|].
  assert (Z.land n UNSIG_BATCH_ = n mod UNSIG_BATCH) as Hmask.
  { change UNSIG_BATCH_ with (Z.ones 6). change UNSIG_BATCH with (2 ^ 6).
    apply Z.land_ones. lia. }
  rewrite Hmask. split; [reflexivity|].
  rewrite Z.rem_mod_nonneg by (unfold UNSIG_BATCH; lia).
  reflexivity.
Qed.

Lemma UNSIG_BATCH_mask_witness :
  (Z.land 128 UNSIG_BATCH_ =? 0) = (Z.rem 128 UNSIG_BATCH =? 0).
Proof.
  destruct (UNSIG_BATCH_mask 128) as (_ & _ & _ & _ & Hb).
  - lia.
  - exact Hb.
Defined.

(** * Further properties of the helpers *)

(** ** Ownership in closed form *)

Section Ownership.
Import CInt Placement.

(** Membership in a ring segment is a test on the ring distance from the
    shard to the server. *)
Lemma replicas_of_closed_form sh N R s :
  0 < N ->
  s ∈ replicas_of N R sh <-> 0 <= s < N /\ (s - sh) mod N < R.
Proof.
  intros HN. rewrite elem_of_replicas_of. split.
  - intros (i & Hi & ->). split; [apply Z.mod_pos_bound; lia|].
    rewrite Zminus_mod_idemp_l. replace (sh + i - sh) with i by lia.
    pose proof (Z.mod_le i N ltac:(lia) HN). lia.
  - intros [Hs Hlt]. exists ((s - sh) mod N).
    pose proof (Z.mod_pos_bound (s - sh) N HN). split; [lia|].
    rewrite Zplus_mod_idemp_r. replace (sh + (s - sh)) with s by lia.
    symmetry. apply Z.mod_small. lia.
Qed.

Lemma owns_shard_decide s sh N R :
  0 <= sh -> sh + (R - 1) <= int_max -> 0 < N ->
  herd_server_owns_shard s sh N R =
  Some (if decide (0 <= s < N /\ (s - sh) mod N < R) then 1 else 0).
Proof.
  intros Hsh Hmax HN.
  destruct (owns_iff_replicas_of s sh N R Hsh Hmax HN) as (r & -> & H01 & Hiff).
  rewrite replicas_of_closed_form in Hiff by done.
  f_equal. case_decide as Hd.
  - now apply Hiff.
  - destruct H01 as [->| ->]; [done|]. exfalso. apply Hd. now apply Hiff.
Qed.

Lemma key_belongs_decide b s N H R :
  0 <= b <= uint_max -> 1 <= H <= int_max -> H + R - 2 <= int_max -> 0 < N ->
  herd_key_belongs_to_server b s N H R =
  Some (if decide (0 <= s < N /\ (s - b mod H) mod N < R) then 1 else 0).
Proof.
  intros Hb HH Hmax HN. unfold herd_key_belongs_to_server.
  rewrite shard_for_key_mod by done. simpl.
  pose proof (Z.mod_pos_bound b H ltac:(lia)).
  apply owns_shard_decide; lia.
Qed.

(** The first step of the ownership loop settles the primary. *)
Lemma owns_primary sh N R :
  0 <= sh <= int_max -> 0 < N -> 1 <= R ->
  herd_server_owns_shard (sh mod N) sh N R = Some 1.
Proof.
  intros Hsh HN HR. unfold herd_server_owns_shard.
  rewrite owns_loop_step.
  destruct (Z_lt_dec 0 R); [|lia].
  rewrite add_exact by (unfold in_int, int_min, int_max in *; lia).
  rewrite Z.add_0_r, rem_nonneg by lia. simpl.
  destruct (Z.eq_dec (sh mod N) (sh mod N)); done.
Qed.

(** Counting the servers of [0, N) at ring distance below [R]. *)
Lemma count_servers_in_ring sh N R :
  0 < N -> 0 <= R <= N ->
  length (filter (fun s => 0 <= s < N /\ (s - sh) mod N < R) (seqZ 0 N))
  = Z.to_nat R.
Proof.
  intros HN HR. rewrite <- (length_replicas_of sh N R).
  apply Permutation_length, NoDup_Permutation.
  - apply NoDup_filter, NoDup_seqZ.
  - apply NoDup_replicas_of; lia.
  - intros s. rewrite list_elem_of_filter, elem_of_seqZ,
      replicas_of_closed_form by done. lia.
Qed.

Lemma length_filter_fmap {A B} (f : A -> B) (P : B -> Prop)
    `{!forall y, Decision (P y)} (l : list A) :
  length (filter (fun x => P (f x)) l) = length (filter P (f <$> l)).
Proof.
  induction l as [|x l IH]; [done|].
  rewrite fmap_cons, !filter_cons.
  destruct (decide (P (f x))); simpl; now rewrite IH.
Qed.

Lemma ring_distance_inj s N x y :
  0 < N -> - N < x - y < N ->
  (s - x) mod N = (s - y) mod N -> x = y.
Proof.
  intros HN Hxy Heq.
  pose proof (Z.div_mod (s - x) N ltac:(lia)) as Ex.
  pose proof (Z.div_mod (s - y) N ltac:(lia)) as Ey.
  rewrite Heq in Ex.
  assert (y - x = N * ((s - x) / N - (s - y) / N)) as Hd by lia.
  assert ((s - x) / N - (s - y) / N = 0) by nia.
  nia.
Qed.

(** Counting the shards of a window of [N] consecutive shards that lie at
    ring distance below [R] from a server. *)
Lemma count_shards_in_ring s a N R :
  0 < N -> 0 <= R <= N ->
  length (filter (fun sh => (s - sh) mod N < R) (seqZ a N)) = Z.to_nat R.
Proof.
  intros HN HR.
  etrans;
    [exact (length_filter_fmap (fun sh => (s - sh) mod N) (fun d => d < R)
              (seqZ a N))|].
  assert ((fun sh => (s - sh) mod N) <$> seqZ a N ≡ₚ seqZ 0 N) as ->.
  { apply submseteq_length_Permutation.
    - apply NoDup_submseteq.
      + apply NoDup_fmap_2_strong; [|apply NoDup_seqZ].
        intros x y Hx%elem_of_seqZ Hy%elem_of_seqZ.
        apply ring_distance_inj; lia.
      + intros d (sh & -> & _)%list_elem_of_fmap.
        apply elem_of_seqZ. pose proof (Z.mod_pos_bound (s - sh) N HN). lia.
    - rewrite length_fmap, !length_seqZ. lia. }
  rewrite <- (length_seqZ 0 R).
  apply Permutation_length, NoDup_Permutation.
  - apply NoDup_filter, NoDup_seqZ.
  - apply NoDup_seqZ.
  - intros d. rewrite list_elem_of_filter, !elem_of_seqZ. lia.
Qed.

End Ownership.

(** ** Configurations, replication extremes and load *)

Section MorePlacement.
Import CInt Placement.

Lemma params_ok_spec N H R sid :
  Startup.params_ok N H R sid = true <->
  1 <= N <= HERD_MAX_SERVERS /\ 1 <= H /\ 1 <= R <= N /\ 0 <= sid < N.
Proof.
  unfold Startup.params_ok.
  rewrite !andb_true_iff, !Z.leb_le, Z.ltb_lt. lia.
Qed.

Lemma owns_shard_Some_1 s sh N R :
  0 <= sh -> sh + (R - 1) <= int_max -> 0 < N ->
  herd_server_owns_shard s sh N R = Some 1 <->
  0 <= s < N /\ (s - sh) mod N < R.
Proof.
  intros Hsh Hmax HN. rewrite owns_shard_decide by done.
  case_decide; split; (done || congruence).
Qed.

Lemma filter_ext_in {A} (P Q : A -> Prop)
    `{!forall x, Decision (P x)} `{!forall x, Decision (Q x)} (l : list A) :
  (forall x, x ∈ l -> P x <-> Q x) -> filter P l = filter Q l.
Proof.
  induction l as [|x l IH]; intros Hext; [done|].
  rewrite !filter_cons.
  assert (filter P l = filter Q l) as ->.
  { apply IH. intros y Hy. apply Hext. now apply list_elem_of_further. }
  pose proof (Hext x (list_elem_of_here _ _)) as Hx.
  destruct (decide (P x)), (decide (Q x)); tauto || done.
Qed.

(** X1: for a configuration that passes the start-up assertions, with
    [num_shards] at most [INT_MAX - (HERD_MAX_SERVERS - 2)], and every
    32-bit bucket, [herd_key_belongs_to_server] returns 1 exactly for the
    servers of the ring segment of the bucket's shard, and 0 for all
    others. *)
Theorem validated_key_ownership N H R sid b s :
  Startup.params_ok N H R sid = true ->
  H <= int_max - (HERD_MAX_SERVERS - 2) ->
  0 <= b <= uint_max ->
  (herd_key_belongs_to_server b s N H R = Some 1 <->
   s ∈ replicas_of N R (b mod H)) /\
  (herd_key_belongs_to_server b s N H R = Some 0 <->
   s ∉ replicas_of N R (b mod H)).
Proof.
  intros (HN & HH & HR & _)%params_ok_spec Hmax Hb.
  unfold HERD_MAX_SERVERS, int_max in *.
  rewrite key_belongs_decide by (unfold int_max; lia).
  rewrite replicas_of_closed_form by lia.
  case_decide; split; split; (done || congruence).
Qed.

Lemma validated_key_ownership_witness :
  herd_key_belongs_to_server 6 0 4 4 3 = Some 1 <->
  0 ∈ replicas_of 4 3 (6 mod 4).
Proof.
  destruct (validated_key_ownership 4 4 3 0 6 0) as [H1 _].
  - reflexivity.
  - unfold int_max, HERD_MAX_SERVERS. lia.
  - unfold uint_max. lia.
  - exact H1.
Defined.

(** X2: while no ring sum overflows, [herd_server_owns_shard] returns 1
    exactly for the server ids [s] in [0, N) whose ring distance
    [(s - sh) mod N] from the shard is below [R], and 0 for every other
    [s]. *)
Theorem owns_shard_ring_distance s sh N R :
  0 <= sh -> sh + (R - 1) <= int_max -> 1 <= N ->
  (herd_server_owns_shard s sh N R = Some 1 <->
   0 <= s < N /\ (s - sh) mod N < R) /\
  (herd_server_owns_shard s sh N R = Some 0 <->
   ~ (0 <= s < N /\ (s - sh) mod N < R)).
Proof.
  intros Hsh Hmax HN. rewrite owns_shard_decide by lia.
  case_decide; split; split; (done || congruence).
Qed.

Lemma owns_shard_ring_distance_witness :
  herd_server_owns_shard 0 2 4 3 = Some 1 <->
  0 <= 0 < 4 /\ (0 - 2) mod 4 < 3.
Proof.
  destruct (owns_shard_ring_distance 0 2 4 3) as [H1 _].
  - lia.
  - unfold int_max. lia.
  - lia.
  - exact H1.
Defined.

(** X3: with [replication_factor = num_servers] every server of [0, N)
    owns every shard. *)
Theorem full_replication_owns_all s sh N :
  0 <= sh -> sh + (N - 1) <= int_max -> 1 <= N -> 0 <= s < N ->
  herd_server_owns_shard s sh N N = Some 1.
Proof.
  intros Hsh Hmax HN Hs. apply owns_shard_Some_1; [done|done|lia|].
  split; [done|]. apply Z.mod_pos_bound. lia.
Qed.

Lemma full_replication_owns_all_witness :
  herd_server_owns_shard 3 5 4 4 = Some 1.
Proof.
  apply (full_replication_owns_all 3 5 4).
  - lia.
  - unfold int_max. lia.
  - lia.
  - lia.
Defined.

(** X4: with [replication_factor = 1] the only owner of a shard is its
    primary: [herd_server_owns_shard] returns 1 for [s] exactly when
    [herd_get_primary_server_for_shard] returns [s]. *)
Theorem single_replica_owner_is_primary s sh N :
  0 <= sh <= int_max -> 1 <= N ->
  herd_server_owns_shard s sh N 1 = Some 1 <->
  herd_get_primary_server_for_shard sh N = Some s.
Proof.
  intros Hsh HN.
  destruct (owns_iff_replicas_of s sh N 1) as (r & Hr & H01 & Hiff);
    [lia|lia|lia|].
  unfold herd_get_primary_server_for_shard.
  rewrite Hr, rem_nonneg by lia.
  rewrite elem_of_replicas_of in Hiff. split.
  - intros [= ->]. destruct (proj1 Hiff eq_refl) as (i & Hi & ->).
    do 2 f_equal. lia.
  - intros [= <-]. f_equal. apply Hiff. exists 0. split; [lia|].
    f_equal. lia.
Qed.

Lemma single_replica_owner_is_primary_witness :
  herd_server_owns_shard 2 6 4 1 = Some 1 <->
  herd_get_primary_server_for_shard 6 4 = Some 2.
Proof.
  apply (single_replica_owner_is_primary 2 6 4).
  - unfold int_max. lia.
  - lia.
Defined.

(** X5: every shard is owned by exactly [R] of the servers [0 .. N-1]
    (for [0 <= R <= N], while no ring sum overflows). *)
Theorem shard_has_R_owners sh N R :
  0 <= sh -> sh + (R - 1) <= int_max -> 1 <= N -> 0 <= R <= N ->
  length (filter (fun s => herd_server_owns_shard s sh N R = Some 1)
            (seqZ 0 N)) = Z.to_nat R.
Proof.
  intros Hsh Hmax HN HR.
  rewrite <- (count_servers_in_ring sh N R) by lia.
  f_equal. apply list_filter_iff. intros s.
  apply owns_shard_Some_1; lia.
Qed.

Lemma shard_has_R_owners_witness :
  length (filter (fun s => herd_server_owns_shard s 2 4 3 = Some 1)
            (seqZ 0 4)) = Z.to_nat 3.
Proof.
  apply (shard_has_R_owners 2 4 3).
  - lia.
  - unfold int_max. lia.
  - lia.
  - lia.
Defined.

(** X6: a server of [0, N) owns exactly [R] of any [N] consecutive shards
    [a .. a+N-1] (for [0 <= R <= N], while no ring sum overflows). *)
Theorem server_owns_R_of_N_shards s a N R :
  0 <= a -> a + (N - 1) + (R - 1) <= int_max ->
  1 <= N -> 0 <= R <= N -> 0 <= s < N ->
  length (filter (fun sh => herd_server_owns_shard s sh N R = Some 1)
            (seqZ a N)) = Z.to_nat R.
Proof.
  intros Ha Hmax HN HR Hs.
  rewrite <- (count_shards_in_ring s a N R) by lia.
  f_equal. apply filter_ext_in. intros sh Hsh%elem_of_seqZ.
  rewrite owns_shard_Some_1 by lia. tauto.
Qed.

Lemma server_owns_R_of_N_shards_witness :
  length (filter (fun sh => herd_server_owns_shard 0 sh 4 3 = Some 1)
            (seqZ 0 4)) = Z.to_nat 3.
Proof.
  apply (server_owns_R_of_N_shards 0 0 4 3).
  - lia.
  - unfold int_max. lia.
  - lia.
  - lia.
  - lia.
Defined.

End MorePlacement.

(** ** Routing, periodicity and edge behaviour *)

Section RoutingAndEdges.
Import CInt Placement.

Lemma target_server_value b N H R :
  0 <= b <= uint_max -> 1 <= H <= int_max -> 0 < N ->
  Client.target_server b N H R = Some ((b mod H) mod N).
Proof.
  intros Hb HH HN. unfold Client.target_server.
  rewrite shard_for_key_mod by done. simpl.
  unfold herd_get_primary_server_for_shard.
  pose proof (Z.mod_pos_bound b H ltac:(lia)).
  rewrite rem_nonneg by lia. now destruct (R =? 1).
Qed.

Lemma replicas_of_shift sh N R :
  0 < N -> replicas_of N R (sh + N) = replicas_of N R sh.
Proof.
  intros HN. unfold replicas_of. apply list_fmap_ext. intros k i _.
  replace (sh + N + i) with (sh + i + 1 * N) by lia.
  apply Z_mod_plus_full.
Qed.

Lemma rem_abs_bound a N : 0 < N -> - N < Z.rem a N < N.
Proof.
  intros HN. destruct (Z_le_gt_dec 0 a).
  - pose proof (Z.rem_bound_pos a N ltac:(lia) HN). lia.
  - pose proof (Z.rem_bound_pos_neg a N HN ltac:(lia)). lia.
Qed.

Lemma to_uint_nonzero H : in_int H -> H <> 0 -> to_uint H <> 0.
Proof.
  unfold in_int, int_min, int_max, to_uint. intros HH Hne.
  Z.div_mod_to_equations. lia.
Qed.

(** X7: placement has period [N] in the shard id: shards [sh] and
    [sh + N] have the same primary, the same replica entries and the same
    owners (while no ring sum of [sh + N] overflows). *)
Theorem placement_periodic s sh N R (buf : list Z) :
  0 <= sh -> sh + N + (R - 1) <= int_max ->
  1 <= N -> 0 <= R -> R <= Z.of_nat (length buf) ->
  herd_get_primary_server_for_shard (sh + N) N =
    herd_get_primary_server_for_shard sh N /\
  herd_get_servers_for_shard (sh + N) N R buf =
    herd_get_servers_for_shard sh N R buf /\
  herd_server_owns_shard s (sh + N) N R = herd_server_owns_shard s sh N R.
Proof.
  intros Hsh Hmax HN HR Hlen. split; [|split].
  - unfold herd_get_primary_server_for_shard.
    rewrite !rem_nonneg by lia. f_equal.
    replace (sh + N) with (sh + 1 * N) by lia. apply Z_mod_plus_full.
  - rewrite !servers_for_shard_entries by lia.
    rewrite !replicas_of_entries by lia.
    now rewrite replicas_of_shift by lia.
  - rewrite !owns_shard_decide by lia.
    replace (s - (sh + N)) with (s - sh + (-1) * N) by lia.
    now rewrite Z_mod_plus_full.
Qed.

Lemma placement_periodic_witness :
  herd_get_servers_for_shard (1 + 4) 4 3 [0; 0; 0] =
  herd_get_servers_for_shard 1 4 3 [0; 0; 0].
Proof.
  destruct (placement_periodic 0 1 4 3 [0; 0; 0]) as (_ & Hs & _).
  - lia.
  - unfold int_max. lia.
  - lia.
  - lia.
  - simpl. lia.
  - exact Hs.
Defined.

(** X8: in a configuration that passes the start-up assertions, the
    server a client routes a bucket to is a server id of [0, N) for which
    [herd_key_belongs_to_server] returns 1: requests reach a server that
    populated the key. *)
Theorem client_target_owns_key N H R sid b :
  Startup.params_ok N H R sid = true ->
  H <= int_max -> 0 <= b <= uint_max ->
  exists t, Client.target_server b N H R = Some t /\ 0 <= t < N /\
            herd_key_belongs_to_server b t N H R = Some 1.
Proof.
  intros (HN & HH & HR & _)%params_ok_spec Hmax Hb.
  exists ((b mod H) mod N).
  pose proof (Z.mod_pos_bound b H ltac:(lia)).
  split; [apply target_server_value; lia|].
  split; [apply Z.mod_pos_bound; lia|].
  unfold herd_key_belongs_to_server.
  rewrite shard_for_key_mod by lia. simpl.
  apply owns_primary; lia.
Qed.

Lemma client_target_owns_key_witness :
  exists t, Client.target_server 4294967295 4 8 3 = Some t /\ 0 <= t < 4 /\
            herd_key_belongs_to_server 4294967295 t 4 8 3 = Some 1.
Proof.
  apply (client_target_owns_key 4 8 3 0 4294967295).
  - reflexivity.
  - unfold int_max. lia.
  - unfold uint_max. lia.
Defined.

(** X9: when [num_servers] divides [num_shards], the routing target is the
    bucket modulo [num_servers]: the shard count does not influence which
    server receives a key. *)
Theorem routing_with_divisible_shards b N H R :
  0 <= b <= uint_max -> 1 <= H <= int_max -> 1 <= N -> (N | H) ->
  Client.target_server b N H R = Some (b mod N).
Proof.
  intros Hb HH HN Hdiv. rewrite target_server_value by lia.
  now rewrite Z.mod_mod_divide.
Qed.

Lemma routing_with_divisible_shards_witness :
  Client.target_server 13 4 8 1 = Some (13 mod 4).
Proof.
  apply (routing_with_divisible_shards 13 4 8 1).
  - unfold uint_max. lia.
  - unfold int_max. lia.
  - lia.
  - exists 2. lia.
Defined.

(** X10: the routing target is below both [num_servers] and [num_shards]:
    with fewer shards than servers, the servers [num_shards .. N-1] never
    receive a request. *)
Theorem target_below_shards_and_servers b N H R :
  0 <= b <= uint_max -> 1 <= H <= int_max -> 1 <= N ->
  exists t, Client.target_server b N H R = Some t /\ 0 <= t < Z.min N H.
Proof.
  intros Hb HH HN. exists ((b mod H) mod N).
  split; [apply target_server_value; lia|].
  pose proof (Z.mod_pos_bound b H ltac:(lia)).
  pose proof (Z.mod_pos_bound (b mod H) N ltac:(lia)).
  pose proof (Z.mod_le (b mod H) N ltac:(lia) ltac:(lia)).
  lia.
Qed.

Lemma target_below_shards_and_servers_witness :
  exists t, Client.target_server 7 4 2 1 = Some t /\ 0 <= t < Z.min 4 2.
Proof.
  apply (target_below_shards_and_servers 7 4 2 1).
  - unfold uint_max. lia.
  - unfold int_max. lia.
  - lia.
Defined.

(** X11: for a negative shard id the C remainder is not a ring position:
    [herd_get_primary_server_for_shard] returns [- ((- sh) mod N)], a
    value in (-N, 0], which is a server id only when [N] divides [sh]. *)
Theorem primary_of_negative_shard sh N :
  sh < 0 -> 1 <= N ->
  exists p, herd_get_primary_server_for_shard sh N = Some p /\
            p = - ((- sh) mod N) /\ - N < p <= 0 /\
            (0 <= p <-> (N | sh)).
Proof.
  intros Hsh HN. exists (Z.rem sh N).
  unfold herd_get_primary_server_for_shard.
  split; [apply rem_pos; lia|].
  assert (Z.rem sh N = - ((- sh) mod N)) as Hrem.
  { replace sh with (- - sh) at 1 by lia.
    rewrite Z.rem_opp_l', Z.rem_mod_nonneg by lia. done. }
  pose proof (Z.mod_pos_bound (- sh) N ltac:(lia)) as Hb.
  split; [done|]. split; [lia|].
  rewrite Hrem. split.
  - intros Hp. assert ((- sh) mod N = 0) as H0 by lia.
    apply Z.mod_divide in H0; [|lia].
    destruct H0 as [k Hk]. exists (- k). lia.
  - intros [k Hk]. assert ((- sh) mod N = 0); [|lia].
    apply Z.mod_divide; [lia|]. exists (- k). lia.
Qed.

Lemma primary_of_negative_shard_witness :
  exists p, herd_get_primary_server_for_shard (-1) 4 = Some p /\
            p = - ((- -1) mod 4) /\ - 4 < p <= 0 /\
            (0 <= p <-> (4 | -1)).
Proof.
  apply (primary_of_negative_shard (-1) 4).
  - lia.
  - lia.
Defined.

(** X12: a negative [num_shards] is not rejected by
    [herd_get_shard_for_key]: converted to [unsigned] it is the divisor
    [2^32 + num_shards], nothing traps, and every bucket in
    [2^31, 2^32 + num_shards) comes back as the negative shard id
    [bucket - 2^32]. *)
Theorem shard_for_key_negative_num_shards b H :
  0 <= b <= uint_max -> int_min <= H < 0 ->
  herd_get_shard_for_key b H = Some (to_int (b mod (2 ^ 32 + H))) /\
  (2 ^ 31 <= b < 2 ^ 32 + H ->
   herd_get_shard_for_key b H = Some (b - 2 ^ 32)).
Proof.
  unfold uint_max, int_min. intros Hb HH.
  assert (to_uint H = 2 ^ 32 + H) as Hu.
  { unfold to_uint. Z.div_mod_to_equations. lia. }
  assert (herd_get_shard_for_key b H = Some (to_int (b mod (2 ^ 32 + H))))
    as Hshard.
  { unfold herd_get_shard_for_key, urem. rewrite Hu.
    destruct (Z.eqb_spec (2 ^ 32 + H) 0); [lia|]. done. }
  split; [exact Hshard|].
  intros Hrange. rewrite Hshard. f_equal.
  rewrite Z.mod_small by lia.
  unfold to_int. Z.div_mod_to_equations. lia.
Qed.

Lemma shard_for_key_negative_num_shards_witness :
  herd_get_shard_for_key 4294967290 (-1) = Some (4294967290 - 2 ^ 32).
Proof.
  destruct (shard_for_key_negative_num_shards 4294967290 (-1)) as [_ Hneg].
  - unfold uint_max. lia.
  - unfold int_min. lia.
  - apply Hneg. lia.
Defined.

(** X13: for a 32-bit bucket, an [int] shard count and a non-negative
    server count, [herd_key_belongs_to_server] fails to return (a division
    by zero) exactly when [num_shards = 0], or [num_servers = 0] with
    [replication_factor >= 1]. *)
Theorem key_belongs_traps_iff b s N H R :
  0 <= b <= uint_max -> in_int H -> 0 <= N ->
  herd_key_belongs_to_server b s N H R = None <->
  H = 0 \/ (N = 0 /\ 1 <= R).
Proof.
  intros Hb HH HN. unfold herd_key_belongs_to_server, herd_get_shard_for_key,
    urem.
  destruct (Z.eq_dec H 0) as [->|Hne].
  { simpl. split; [now left|done]. }
  pose proof (to_uint_nonzero H HH Hne) as Hu.
  destruct (Z.eqb_spec (to_uint H) 0); [done|]. simpl.
  unfold herd_server_owns_shard.
  destruct (Z.eq_dec N 0) as [->|HN0].
  - rewrite owns_loop_step.
    destruct (Z_lt_dec 0 R) as [HR|HR]; simpl.
    + split; [intros _; right; lia|done].
    + split; [done|]. intros [?|[_ ?]]; lia.
  - destruct (owns_shard_entries s (to_int (b mod to_uint H)) N R)
      as (r & Hr & _); [lia|].
    unfold herd_server_owns_shard in Hr. rewrite Hr.
    split; [done|]. intros [?|[? _]]; lia.
Qed.

Lemma key_belongs_traps_iff_witness :
  herd_key_belongs_to_server 7 0 0 4 3 = None <-> 4 = 0 \/ (0 = 0 /\ 1 <= 3).
Proof.
  apply (key_belongs_traps_iff 7 0 0 4 3).
  - unfold uint_max. lia.
  - unfold in_int, int_min, int_max. lia.
  - lia.
Defined.

(** X14: for [N >= 1] and a buffer of at least [R] entries,
    [herd_get_servers_for_shard] returns for every shard id, keeps the
    length of the buffer, leaves the entries from index [R] on as they
    were, and every entry it writes lies strictly between [-N] and [N]. *)
Theorem servers_for_shard_frame sh N R (buf : list Z) :
  1 <= N -> 0 <= R <= Z.of_nat (length buf) ->
  exists out,
    herd_get_servers_for_shard sh N R buf = Some out /\
    length out = length buf /\
    (forall j : nat, R <= Z.of_nat j -> out !! j = buf !! j) /\
    (forall (j : nat) v, Z.of_nat j < R -> out !! j = Some v -> - N < v < N).
Proof.
  intros HN HR. eexists. split; [apply servers_for_shard_entries; lia|].
  assert (length (ring_entry sh N <$> seqZ 0 R) = Z.to_nat R) as Hl
    by now rewrite length_fmap, length_seqZ.
  split; [|split].
  - rewrite length_app, Hl, length_drop. lia.
  - intros j Hj. rewrite lookup_app_r by lia.
    rewrite lookup_drop, Hl. f_equal. lia.
  - intros j v Hj. rewrite lookup_app_l by lia.
    rewrite list_lookup_fmap.
    destruct (seqZ 0 R !! j) as [i|]; [|done]. simpl. intros [= <-].
    unfold ring_entry. apply rem_abs_bound. lia.
Qed.

Lemma servers_for_shard_frame_witness :
  exists out,
    herd_get_servers_for_shard 2147483646 3 3 [7; 7; 7; 7] = Some out /\
    length out = length [7; 7; 7; 7] /\
    (forall j : nat, 3 <= Z.of_nat j -> out !! j = [7; 7; 7; 7] !! j) /\
    (forall (j : nat) v, Z.of_nat j < 3 -> out !! j = Some v -> - 3 < v < 3).
Proof.
  apply (servers_for_shard_frame 2147483646 3 3 [7; 7; 7; 7]).
  - lia.
  - simpl. lia.
Defined.

End RoutingAndEdges.

(** ** Geometry of the request region *)

Section MoreRegion.
Import CInt Region.

Lemma OFFSET_mixed_radix w c s :
  0 <= w < NUM_WORKERS -> 0 <= c < NUM_CLIENTS -> 0 <= s < WINDOW_SIZE ->
  OFFSET w c s = w * 2240 + c * 32 + s.
Proof.
  intros Hw Hc Hs. destruct (OFFSET_in_region w c s Hw Hc Hs) as [-> _].
  unfold NUM_CLIENTS, WINDOW_SIZE. lia.
Qed.

(** X15: the slot indices of the region have no gaps: every index below
    [NUM_WORKERS * NUM_CLIENTS * WINDOW_SIZE] is the [OFFSET] of the
    position obtained from it by division, worker [k / (NUM_CLIENTS *
    WINDOW_SIZE)], client [(k / WINDOW_SIZE) mod NUM_CLIENTS], window slot
    [k mod WINDOW_SIZE]. *)
Theorem OFFSET_onto_region k :
  0 <= k < NUM_WORKERS * NUM_CLIENTS * WINDOW_SIZE ->
  0 <= k / (NUM_CLIENTS * WINDOW_SIZE) < NUM_WORKERS /\
  0 <= (k / WINDOW_SIZE) mod NUM_CLIENTS < NUM_CLIENTS /\
  0 <= k mod WINDOW_SIZE < WINDOW_SIZE /\
  OFFSET (k / (NUM_CLIENTS * WINDOW_SIZE))
         ((k / WINDOW_SIZE) mod NUM_CLIENTS)
         (k mod WINDOW_SIZE) = k.
Proof.
  intros Hk.
  assert (0 <= k / (NUM_CLIENTS * WINDOW_SIZE) < NUM_WORKERS /\
          0 <= (k / WINDOW_SIZE) mod NUM_CLIENTS < NUM_CLIENTS /\
          0 <= k mod WINDOW_SIZE < WINDOW_SIZE) as (Hw & Hc & Hs).
  { unfold NUM_WORKERS, NUM_CLIENTS, WINDOW_SIZE in *.
    Z.div_mod_to_equations. lia. }
  do 3 (split; [done|]).
  rewrite OFFSET_mixed_radix by done.
  unfold NUM_WORKERS, NUM_CLIENTS, WINDOW_SIZE in *.
  Z.div_mod_to_equations. lia.
Qed.

Lemma OFFSET_onto_region_witness :
  OFFSET (5000 / (NUM_CLIENTS * WINDOW_SIZE))
         ((5000 / WINDOW_SIZE) mod NUM_CLIENTS)
         (5000 mod WINDOW_SIZE) = 5000.
Proof.
  destruct (OFFSET_onto_region 5000) as (_ & _ & _ & Hk).
  - unfold NUM_WORKERS, NUM_CLIENTS, WINDOW_SIZE. lia.
  - exact Hk.
Defined.

(** X16: a position of the region can be read back from its slot index:
    the worker is [OFFSET / (NUM_CLIENTS * WINDOW_SIZE)], the client
    [(OFFSET / WINDOW_SIZE) mod NUM_CLIENTS] and the window slot
    [OFFSET mod WINDOW_SIZE]; so the slots of worker [w] are the index
    range from [w * NUM_CLIENTS * WINDOW_SIZE] up to the start of worker
    [w + 1]. *)
Theorem OFFSET_reads_back w c s :
  0 <= w < NUM_WORKERS -> 0 <= c < NUM_CLIENTS -> 0 <= s < WINDOW_SIZE ->
  OFFSET w c s / (NUM_CLIENTS * WINDOW_SIZE) = w /\
  (OFFSET w c s / WINDOW_SIZE) mod NUM_CLIENTS = c /\
  OFFSET w c s mod WINDOW_SIZE = s /\
  w * (NUM_CLIENTS * WINDOW_SIZE) <= OFFSET w c s
    < (w + 1) * (NUM_CLIENTS * WINDOW_SIZE).
Proof.
  intros Hw Hc Hs. rewrite OFFSET_mixed_radix by done.
  unfold NUM_WORKERS, NUM_CLIENTS, WINDOW_SIZE in *.
  repeat split; try lia; Z.div_mod_to_equations; lia.
Qed.

Lemma OFFSET_reads_back_witness :
  OFFSET 11 69 31 / (NUM_CLIENTS * WINDOW_SIZE) = 11 /\
  (OFFSET 11 69 31 / WINDOW_SIZE) mod NUM_CLIENTS = 69 /\
  OFFSET 11 69 31 mod WINDOW_SIZE = 31 /\
  11 * (NUM_CLIENTS * WINDOW_SIZE) <= OFFSET 11 69 31
    < (11 + 1) * (NUM_CLIENTS * WINDOW_SIZE).
Proof.
  apply (OFFSET_reads_back 11 69 31).
  - unfold NUM_WORKERS. lia.
  - unfold NUM_CLIENTS. lia.
  - unfold WINDOW_SIZE. lia.
Defined.

(** X17: the byte ranges of two different positions of the region do not
    overlap, for every slot size in (0, 2^32): one slot ends at or before
    the byte where the other starts. *)
Theorem slots_do_not_overlap slot_size w c s w' c' s' :
  0 < slot_size < 2 ^ 32 ->
  0 <= w < NUM_WORKERS -> 0 <= c < NUM_CLIENTS -> 0 <= s < WINDOW_SIZE ->
  0 <= w' < NUM_WORKERS -> 0 <= c' < NUM_CLIENTS -> 0 <= s' < WINDOW_SIZE ->
  (w, c, s) <> (w', c', s') ->
  slot_offset slot_size w c s + slot_size <= slot_offset slot_size w' c' s' \/
  slot_offset slot_size w' c' s' + slot_size <= slot_offset slot_size w c s.
Proof.
  intros Hsz Hw Hc Hs Hw' Hc' Hs' Hne.
  pose proof (OFFSET_mixed_radix w c s Hw Hc Hs) as E.
  pose proof (OFFSET_mixed_radix w' c' s' Hw' Hc' Hs') as E'.
  unfold NUM_WORKERS, NUM_CLIENTS, WINDOW_SIZE in *.
  rewrite !slot_offset_exact by (unfold int_max; lia).
  assert (OFFSET w c s <> OFFSET w' c' s') as Hoff.
  { intros Heq. apply Hne.
    assert (w = w') by lia. assert (c = c') by lia. assert (s = s') by lia.
    congruence. }
  destruct (Z_lt_ge_dec (OFFSET w c s) (OFFSET w' c' s')); [left|right]; nia.
Qed.

Lemma slots_do_not_overlap_witness :
  slot_offset 64 0 0 31 + 64 <= slot_offset 64 0 1 0 \/
  slot_offset 64 0 1 0 + 64 <= slot_offset 64 0 0 31.
Proof.
  apply (slots_do_not_overlap 64 0 0 31 0 1 0).
  - lia.
  - unfold NUM_WORKERS. lia.
  - unfold NUM_CLIENTS. lia.
  - unfold WINDOW_SIZE. lia.
  - unfold NUM_WORKERS. lia.
  - unfold NUM_CLIENTS. lia.
  - unfold WINDOW_SIZE. lia.
  - discriminate.
Defined.

(** X18: [OFFSET] checks no bounds on its operands.  For [int] variables
    passed as operands: a client index [cn] that lies [NUM_CLIENTS] above
    [cn'] gives with worker [wn] the slot index of client [cn'] in the
    column of worker [wn' = wn + 1], and a window slot [ws] that lies
    [WINDOW_SIZE] above [ws'] gives the slot index of window slot [ws']
    of client [cn1 = cn' + 1]. *)
Theorem OFFSET_aliases_out_of_bounds wn wn' cn cn' cn1 ws ws' :
  0 <= wn -> 0 <= cn' -> 0 <= ws' ->
  (wn + 1) * NUM_CLIENTS * WINDOW_SIZE + (cn' + 1) * WINDOW_SIZE + ws'
    <= int_max ->
  wn' = wn + 1 -> cn = cn' + NUM_CLIENTS ->
  cn1 = cn' + 1 -> ws = ws' + WINDOW_SIZE ->
  OFFSET wn cn ws' = OFFSET wn' cn' ws' /\
  OFFSET wn cn' ws = OFFSET wn cn1 ws'.
Proof.
  intros Hw Hc Hs Hmax -> -> -> ->.
  rewrite !OFFSET_exact; unfold NUM_CLIENTS, WINDOW_SIZE in *; lia.
Qed.

Lemma OFFSET_aliases_out_of_bounds_witness :
  OFFSET 0 73 5 = OFFSET 1 3 5 /\ OFFSET 0 3 37 = OFFSET 0 4 5.
Proof.
  apply (OFFSET_aliases_out_of_bounds 0 1 73 3 4 37 5).
  - lia.
  - lia.
  - lia.
  - unfold NUM_CLIENTS, WINDOW_SIZE, int_max. lia.
  - lia.
  - unfold NUM_CLIENTS. lia.
  - lia.
  - unfold WINDOW_SIZE. lia.
Defined.

End MoreRegion.

(** ** Key population *)

Section Population.
Import CInt Placement Worker.

(** The loop appends, in order, the keys for which
    [herd_key_belongs_to_server] answers 1; it cannot trap on a positive
    server count. *)
Lemma populate_run (keys : list Z) s N H R : forall kv,
  Forall (fun b => 0 <= b <= uint_max) keys ->
  1 <= H <= int_max -> 0 < N ->
  populate keys s N H R kv =
  Some (kv ++ filter (fun b => herd_key_belongs_to_server b s N H R = Some 1)
                keys).
Proof.
  induction keys as [|b keys IH]; intros kv Hkeys HH HN.
  { simpl. now rewrite app_nil_r. }
  apply Forall_cons in Hkeys as [Hb Hkeys].
  simpl populate. rewrite filter_cons.
  assert (exists r, herd_key_belongs_to_server b s N H R = Some r /\
                    (r = 0 \/ r = 1)) as (r & Hr & H01).
  { unfold herd_key_belongs_to_server.
    rewrite shard_for_key_mod by done. simpl.
    destruct (owns_shard_entries s (b mod H) N R HN) as (r & Hr & H01 & _).
    now exists r. }
  rewrite Hr. simpl.
  destruct H01 as [->| ->]; simpl.
  - now rewrite IH by done.
  - rewrite IH by done. now rewrite <- app_assoc.
Qed.



(** X19: in a validated configuration (with [num_shards] at most
    [INT_MAX - (HERD_MAX_SERVERS - 2)]) the population loop of a server
    returns the keys inserted before it followed by exactly the entries
    of the key array, in array order and with their repetitions, whose
    shard has this server in its ring segment. *)
Theorem populate_selects_ring_keys (keys kv : list Z) N H R sid :
  Startup.params_ok N H R sid = true ->
  H <= int_max - (HERD_MAX_SERVERS - 2) ->
  Forall (fun b => 0 <= b <= uint_max) keys ->
  populate keys sid N H R kv =
  Some (kv ++ filter (fun b => sid ∈ replicas_of N R (b mod H)) keys).
Proof.
  intros (HN & HH & HR & Hsid)%params_ok_spec Hmax Hkeys.
  unfold HERD_MAX_SERVERS in *.
  rewrite populate_run by (done || unfold int_max in *; lia).
  do 2 f_equal. apply filter_ext_in. intros b Hin.
  rewrite Forall_forall in Hkeys.
  rewrite key_belongs_decide
    by (try apply Hkeys; unfold int_max in *; (done || lia)).
  rewrite replicas_of_closed_form by lia.
  case_decide; split; (done || congruence).
Qed.

Lemma populate_selects_ring_keys_witness :
  populate [0; 4; 0; 1] 0 4 4 1 [9] = Some [9; 0; 4; 0].
Proof.
  rewrite (populate_selects_ring_keys [0; 4; 0; 1] [9] 4 4 1 0).
  - vm_compute. reflexivity.
  - reflexivity.
  - unfold int_max, HERD_MAX_SERVERS. lia.
  - unfold uint_max. repeat constructor; lia.
Defined.

(** X20: in a validated configuration every key of the key array is
    inserted by the server the client routes it to. *)
Theorem populate_covers_routing (keys : list Z) N H R sid b :
  Startup.params_ok N H R sid = true ->
  H <= int_max ->
  Forall (fun b => 0 <= b <= uint_max) keys ->
  b ∈ keys ->
  Client.target_server b N H R = Some sid ->
  exists kv, populate keys sid N H R [] = Some kv /\ b ∈ kv.
Proof.
  intros (HN & HH & HR & Hsid)%params_ok_spec Hmax Hkeys Hin Ht.
  eexists. split; [apply populate_run; (done || lia)|].
  simpl. apply list_elem_of_filter. split; [|done].
  rewrite Forall_forall in Hkeys. pose proof (Hkeys b Hin) as Hb.
  rewrite target_server_value in Ht by lia. injection Ht as <-.
  unfold herd_key_belongs_to_server.
  rewrite shard_for_key_mod by lia. simpl.
  pose proof (Z.mod_pos_bound b H ltac:(lia)).
  apply owns_primary; lia.
Qed.

Lemma populate_covers_routing_witness :
  exists kv, populate [5; 6; 7] 2 4 4 3 [] = Some kv /\ 6 ∈ kv.
Proof.
  apply (populate_covers_routing [5; 6; 7] 4 4 3 2 6).
  - reflexivity.
  - unfold int_max. lia.
  - unfold uint_max. repeat constructor; lia.
  - apply list_elem_of_further, list_elem_of_here.
  - reflexivity.
Defined.



End Population.

(** ** Load over a whole shard space *)

Section Balance.
Import CInt Placement.

(** A count that is the same in every window of [N] consecutive shards
    adds up over [k] windows. *)
Lemma count_over_windows (P : Z -> Prop) `{!forall x, Decision (P x)}
    (N : Z) (n : nat) (k : nat) :
  0 < N ->
  (forall a, 0 <= a -> a + N <= Z.of_nat k * N ->
             length (filter P (seqZ a N)) = n) ->
  length (filter P (seqZ 0 (Z.of_nat k * N))) = (k * n)%nat.
Proof.
  intros HN. induction k as [|k IH]; intros Hwin; [done|].
  replace (Z.of_nat (S k) * N) with (Z.of_nat k * N + N) by lia.
  rewrite seqZ_app, filter_app, length_app by lia.
  rewrite IH by (intros a Ha Hle; apply Hwin; lia).
  rewrite Z.add_0_l, Hwin by lia. lia.
Qed.

(** X22: when the shard count is a multiple [k * N] of the server count,
    every server of [0, N) is the primary of exactly [k] shards. *)
Theorem primaries_balanced t N (k : nat) :
  1 <= N -> 0 <= t < N -> Z.of_nat k * N - 1 <= int_max ->
  length (filter (fun sh => herd_get_primary_server_for_shard sh N = Some t)
            (seqZ 0 (Z.of_nat k * N))) = k.
Proof.
  intros HN Ht Hmax. rewrite <- (Nat.mul_1_r k) at 2.
  apply count_over_windows; [lia|]. intros a Ha Hle.
  etrans; [|exact (count_shards_in_ring t a N 1 ltac:(lia) ltac:(lia))].
  f_equal. apply filter_ext_in. intros sh Hsh%elem_of_seqZ.
  unfold herd_get_primary_server_for_shard. rewrite rem_nonneg by lia.
  pose proof (Z.mod_pos_bound sh N ltac:(lia)) as Hb.
  pose proof (Z.mod_pos_bound (t - sh) N ltac:(lia)) as Hd.
  split.
  - intros [= <-]. rewrite Zminus_mod_idemp_l, Z.sub_diag, Z.mod_0_l; lia.
  - intros Hlt. f_equal. assert ((t - sh) mod N = 0) as H0 by lia.
    apply Z.mod_divide in H0 as [q Hq]; [|lia].
    replace sh with (t + (- q) * N) by lia.
    rewrite Z_mod_plus_full. apply Z.mod_small. lia.
Qed.

Lemma primaries_balanced_witness :
  length (filter (fun sh => herd_get_primary_server_for_shard sh 4 = Some 1)
            (seqZ 0 (Z.of_nat 2 * 4))) = 2%nat.
Proof.
  apply (primaries_balanced 1 4 2).
  - lia.
  - lia.
  - unfold int_max. lia.
Defined.

(** X23: when the shard count is a multiple [k * N] of the server count,
    every server of [0, N) owns exactly [k * R] of the shards
    [0 .. k*N - 1] (for [0 <= R <= N], while no ring sum overflows). *)
Theorem owned_shards_balanced s N R (k : nat) :
  1 <= N -> 0 <= R <= N -> 0 <= s < N ->
  Z.of_nat k * N - 1 + (R - 1) <= int_max ->
  length (filter (fun sh => herd_server_owns_shard s sh N R = Some 1)
            (seqZ 0 (Z.of_nat k * N))) = (k * Z.to_nat R)%nat.
Proof.
  intros HN HR Hs Hmax.
  apply count_over_windows; [lia|]. intros a Ha Hle.
  rewrite <- (count_shards_in_ring s a N R) by lia.
  f_equal. apply filter_ext_in. intros sh Hsh%elem_of_seqZ.
  rewrite owns_shard_Some_1 by lia. tauto.
Qed.

Lemma owned_shards_balanced_witness :
  length (filter (fun sh => herd_server_owns_shard 0 sh 4 3 = Some 1)
            (seqZ 0 (Z.of_nat 2 * 4))) = (2 * Z.to_nat 3)%nat.
Proof.
  apply (owned_shards_balanced 0 4 3 2).
  - lia.
  - lia.
  - lia.
  - unfold int_max. lia.
Defined.

End Balance.

(** ** Signalling period *)

(** X24: the mask test on a send counter has period [UNSIG_BATCH]: it
    gives the same answer for [n] and [n + UNSIG_BATCH], and after a
    counter that passes it none of the next [UNSIG_BATCH - 1] counters
    does. *)
Theorem UNSIG_BATCH_period n :
  0 <= n ->
  Z.land (n + UNSIG_BATCH) UNSIG_BATCH_ = Z.land n UNSIG_BATCH_ /\
  (Z.land n UNSIG_BATCH_ = 0 ->
   forall k, n < k < n + UNSIG_BATCH -> Z.land k UNSIG_BATCH_ <> 0).
Proof.
  intros Hn.
  assert (forall m, Z.land m UNSIG_BATCH_ = m mod 64) as Hmask.
  { intros m. change UNSIG_BATCH_ with (Z.ones 6). change 64 with (2 ^ 6).
    apply Z.land_ones. lia. }
  rewrite !Hmask. unfold UNSIG_BATCH. split.
  - replace (n + 64) with (n + 1 * 64) by lia. apply Z_mod_plus_full.
  - intros H0 k Hk. rewrite Hmask. Z.div_mod_to_equations. lia.
Qed.

Lemma UNSIG_BATCH_period_witness :
  Z.land (128 + UNSIG_BATCH) UNSIG_BATCH_ = Z.land 128 UNSIG_BATCH_.
Proof.
  destruct (UNSIG_BATCH_period 128) as [Hp _].
  - lia.
  - exact Hp.
Defined.
